(** * Braindiff: the [Errors] helper and the schema-drop script

    A shallow embedding of the errors module, imported as [@/errors] (the
    [Result] wrappers [tryCatch] / [trySync], the [WrappedError] class and
    [wrap]), and of [src/db/scripts/drop.ts] ([dropSchemas]).

    JavaScript values live in a heap of objects addressed by location, so
    that object identity, property presence and prototype tests can be
    stated.  Effectful code runs in a state monad over a [world] (heap,
    console, statements sent to the database) whose outcomes are a normal
    return, a thrown value, or the end of the process. *)

From Stdlib Require Import ZArith NArith String Ascii List Lia.
From stdpp Require Import base option list strings gmap.

Local Open Scope list_scope.

(** ** Strings

    A JavaScript string is a sequence of UTF-16 code units. *)

Module JSString.

Definition code_unit := N.
Definition t := list code_unit.

(** The code units of an ASCII literal of the source text. *)
Definition lit (s : string) : t :=
  map N_of_ascii (list_ascii_of_string s).

(** ECMAScript WhiteSpace and LineTerminator code points; all of them are
    in the Basic Multilingual Plane, hence single code units. *)
Definition is_white_space (c : code_unit) : bool :=
  ((9 <=? c) && (c <=? 13) || (c =? 32) || (c =? 160) || (c =? 5760)
   || (8192 <=? c) && (c <=? 8202) || (c =? 8232) || (c =? 8233)
   || (c =? 8239) || (c =? 8287) || (c =? 12288) || (c =? 65279))%N.

Fixpoint trimStart (s : t) : t :=
  match s with
  | [] => []
  | c :: s' => if is_white_space c then trimStart s' else s
  end.

Definition trimEnd (s : t) : t := rev (trimStart (rev s)).

(** [String.prototype.trim]. *)
Definition trim (s : t) : t := trimEnd (trimStart s).

Definition is_empty (s : t) : bool :=
  match s with [] => true | _ :: _ => false end.

End JSString.

Arguments JSString.lit : simpl never.

Abbreviation jsstring := JSString.t.
Notation "'js' s" := (JSString.lit s%string) (at level 1, s at level 0, only parsing).

(** ** Values, objects and the heap *)

Abbreviation loc := nat.

(** Numbers, symbols and functions are not needed by the code under study. *)
Inductive value : Type :=
| VUndefined
| VNull
| VBool (b : bool)
| VString (s : jsstring)
| VRef (l : loc).

Global Instance value_eq_dec : EqDecision value.
Proof. solve_decision. Defined.

(** The prototype an object was created with: [Object.prototype] for object
    literals and other non-errors, [Error.prototype] for native errors (and
    subclasses that do not override what is used here), and
    [WrappedError.prototype], which inherits from [Error.prototype]. *)
Inductive prototype : Type :=
| ObjectPrototype
| ErrorPrototype
| WrappedErrorPrototype.

Global Instance prototype_eq_dec : EqDecision prototype.
Proof. solve_decision. Defined.

(** An object: its prototype and its own data properties. *)
Record object : Type := Object {
  proto : prototype;
  props : gmap string value
}.

(** The heap: objects in allocation order; a location is an index. *)
Abbreviation heap := (list object).

(** Data properties found on the prototype chain: [Error.prototype.name] is
    ["Error"] and [Error.prototype.message] is the empty string. *)
Definition inherited (p : prototype) (key : string) : option value :=
  match p with
  | ObjectPrototype => None
  | ErrorPrototype | WrappedErrorPrototype =>
      if String.eqb key "name" then Some (VString (js "Error"))
      else if String.eqb key "message" then Some (VString [])
      else None
  end.

(** [key in o], for data properties. *)
Definition has_property (o : object) (key : string) : bool :=
  match props o !! key with
  | Some _ => true
  | None => match inherited (proto o) key with Some _ => true | None => false end
  end.

(** [o.key]: the own property, else the inherited one, else [undefined]. *)
Definition get (o : object) (key : string) : value :=
  match props o !! key with
  | Some v => v
  | None => default VUndefined (inherited (proto o) key)
  end.

(** [o instanceof Error]. *)
Definition is_error_object (o : object) : bool :=
  match proto o with
  | ObjectPrototype => false
  | ErrorPrototype | WrappedErrorPrototype => true
  end.

(** ToBoolean. *)
Definition truthy (v : value) : bool :=
  match v with
  | VUndefined | VNull => false
  | VBool b => b
  | VString s => negb (JSString.is_empty s)
  | VRef _ => true
  end.

(** [v != null]. *)
Definition not_nullish (v : value) : bool :=
  match v with
  | VUndefined | VNull => false
  | _ => true
  end.

(** ** Heap queries

    Method calls that only read the heap.  A call either completes normally
    or throws a [TypeError] (the error object itself is not materialised).
    Recursive calls are bounded by [fuel]; [None] means the fuel ran out (or
    a location outside the heap was reached, which no program can build). *)

Inductive completion (A : Type) : Type :=
| Normal (a : A)
| TypeError.
Arguments Normal {A} a.
Arguments TypeError {A}.

Definition eval (A : Type) : Type := option (completion A).

Definition eval_ret {A} (a : A) : eval A := Some (Normal a).

Definition eval_bind {A B} (m : eval A) (k : A -> eval B) : eval B :=
  match m with
  | Some (Normal a) => k a
  | Some TypeError => Some TypeError
  | None => None
  end.

Declare Scope eval_scope.
Delimit Scope eval_scope with eval.
Notation "'let*' x := m 'in' k" := (eval_bind m (fun x => k))
  (at level 10, x name, m at level 100, k at level 200) : eval_scope.

(** [v instanceof Error]: false on primitives. *)
Definition instanceof_Error (h : heap) (v : value) : eval bool :=
  match v with
  | VRef l =>
      match h !! l with
      | Some o => eval_ret (is_error_object o)
      | None => None
      end
  | _ => eval_ret false
  end.

Definition separator : jsstring := js ": ".

Module WrappedError.

(** [this.cause] read through the [unwrap] method, which only instances of
    the class have. *)
Definition unwrap (h : heap) (this : value) : eval value :=
  match this with
  | VRef l =>
      match h !! l with
      | Some o =>
          match proto o with
          | WrappedErrorPrototype => eval_ret (get o "cause")
          | _ => Some TypeError
          end
      | None => None
      end
  | _ => Some TypeError
  end.

(** The abstract operation ToString, given the [toString] method used
    for objects and wrapped primitives. *)
Definition ToString (call_toString : value -> eval jsstring) (v : value)
  : eval jsstring :=
  match v with
  | VUndefined => eval_ret (js "undefined")
  | VNull => eval_ret (js "null")
  | _ => call_toString v
  end.

(** [Error.prototype.toString] on the object [o]. *)
Definition Error_toString (call_toString : value -> eval jsstring)
    (o : object) : eval jsstring :=
  (let* name := match get o "name" with
                | VUndefined => eval_ret (js "Error")
                | v => ToString call_toString v
                end in
   let* msg := match get o "message" with
               | VUndefined => eval_ret []
               | v => ToString call_toString v
               end in
   if JSString.is_empty name then eval_ret msg
   else if JSString.is_empty msg then eval_ret name
   else eval_ret (name ++ separator ++ msg))%eval.

(** [v.toString()] for any value [v].  On a [WrappedError] this is the
    class's own method
      [`${this.message}: ${this.cause.toString()}`];
    on other errors it is [Error.prototype.toString], on other objects
    [Object.prototype.toString], and on primitives the wrapper's method
    ([undefined] and [null] have none).  [fuel] bounds the nesting of
    method calls. *)
Fixpoint toString (fuel : nat) (h : heap) (this : value) : eval jsstring :=
  match this with
  | VUndefined | VNull => Some TypeError
  | VBool b => eval_ret (if b then js "true" else js "false")
  | VString s => eval_ret s
  | VRef l =>
      match fuel with
      | O => None
      | S fuel' =>
          match h !! l with
          | None => None
          | Some o =>
              match proto o with
              | ObjectPrototype => eval_ret (js "[object Object]")
              | ErrorPrototype => Error_toString (toString fuel' h) o
              | WrappedErrorPrototype =>
                  (let* message :=
                     ToString (toString fuel' h) (get o "message") in
                   let* cause := toString fuel' h (get o "cause") in
                   eval_ret (message ++ separator ++ cause))%eval
              end
          end
      end
  end.

(** The condition of the loop in the static method [cause]:
      ["cause" in result && result.cause != null
       && result.cause instanceof Error].
    The [in] operator throws on a primitive. *)
Definition has_error_cause (h : heap) (result : value) : eval bool :=
  match result with
  | VRef l =>
      match h !! l with
      | Some o =>
          if has_property o "cause" && not_nullish (get o "cause")
          then instanceof_Error h (get o "cause")
          else eval_ret false
      | None => None
      end
  | _ => Some TypeError
  end.

(** [result.cause], the body of the loop. *)
Definition get_cause (h : heap) (result : value) : eval value :=
  match result with
  | VRef l =>
      match h !! l with
      | Some o => eval_ret (get o "cause")
      | None => None
      end
  | VUndefined | VNull => Some TypeError
  | _ => eval_ret VUndefined
  end.

(** The [while] loop; [fuel] bounds the number of times its condition is
    tested. *)
Fixpoint cause_loop (fuel : nat) (h : heap) (result : value) : eval value :=
  match fuel with
  | O => None
  | S fuel' =>
      (let* continue := has_error_cause h result in
       if continue : bool then
         let* next := get_cause h result in
         cause_loop fuel' h next
       else eval_ret result)%eval
  end.

(** [static cause(error)]. *)
Definition cause (fuel : nat) (h : heap) (error : value) : eval value :=
  cause_loop fuel h error.

End WrappedError.

(** ** Effectful code

    [drop.ts] talks to the console, to the database and to the process; the
    constructor of [WrappedError] allocates.  Such code is a state
    transformer over the [world]. *)

Inductive level : Type := LogLevel | WarnLevel | ErrorLevel.

(** The one statement the script builds:
    [sql`DROP SCHEMA IF EXISTS ${sql.identifier(schemaName)} CASCADE`]. *)
Inductive statement : Type :=
| DropSchemaIfExistsCascade (identifier : jsstring).

Record world : Type := World {
  heap_of : heap;
  console : list (level * list value);
  executed : list statement
}.

(** How a computation ends: it returns, it throws, or [process.exit] ended
    the process. *)
Inductive outcome (A : Type) : Type :=
| Returns (a : A)
| Throws (e : value)
| Exits (code : Z).
Arguments Returns {A} a.
Arguments Throws {A} e.
Arguments Exits {A} code.

Definition M (A : Type) : Type := world -> outcome A * world.

Definition ret {A} (a : A) : M A := fun w => (Returns a, w).

Definition bind {A B} (m : M A) (k : A -> M B) : M B :=
  fun w =>
    match m w with
    | (Returns a, w') => k a w'
    | (Throws e, w') => (Throws e, w')
    | (Exits c, w') => (Exits c, w')
    end.

Definition throw {A} (e : value) : M A := fun w => (Throws e, w).

(** [try { body } catch (error) { handler }]: only a thrown value is caught;
    the end of the process is not. *)
Definition try_catch {A} (body : M A) (handler : value -> M A) : M A :=
  fun w =>
    match body w with
    | (Throws e, w') => handler e w'
    | r => r
    end.

Declare Scope prog_scope.
Delimit Scope prog_scope with prog.
Notation "'let*' x := m 'in' k" := (bind m (fun x => k))
  (at level 10, x name, m at level 100, k at level 200) : prog_scope.
Notation "m ;; k" := (bind m (fun _ => k))
  (at level 100, k at level 200, right associativity) : prog_scope.

(** A settled promise.  A promise that never settles keeps every [await] on
    it waiting for ever and is outside the model. *)
Inductive promise (A : Type) : Type :=
| Fulfilled (a : A)
| Rejected (e : value).
Arguments Fulfilled {A} a.
Arguments Rejected {A} e.

(** [await p]. *)
Definition await {A} (p : promise A) : M A :=
  match p with
  | Fulfilled a => ret a
  | Rejected e => throw e
  end.

(** The promise an [async function] hands back for its body. *)
Definition async {A} (body : M A) : M (promise A) :=
  fun w =>
    match body w with
    | (Returns a, w') => (Returns (Fulfilled a), w')
    | (Throws e, w') => (Returns (Rejected e), w')
    | (Exits c, w') => (Exits c, w')
    end.

(** [new C(...)]: the object gets the next free location. *)
Definition alloc (o : object) : M value :=
  fun w =>
    (Returns (VRef (length (heap_of w))),
     {| heap_of := heap_of w ++ [o];
        console := console w;
        executed := executed w |}).

Definition console_write (lv : level) (args : list value) : M unit :=
  fun w =>
    (Returns tt,
     {| heap_of := heap_of w;
        console := console w ++ [(lv, args)];
        executed := executed w |}).

Definition console_log := console_write LogLevel.
Definition console_warn := console_write WarnLevel.
Definition console_error := console_write ErrorLevel.

Definition process_exit {A} (code : Z) : M A := fun w => (Exits code, w).

(** ** errors.ts *)

(** [Success<T> | Failure<E>]: an object with the two fields [data] and
    [error], one of which is [undefined]. *)
Record Result : Type := { data : value; error : value }.

Definition tryCatch (p : promise value) : M (promise Result) :=
  async
    (try_catch
       (let* data := await p in
        ret {| data := data; error := VUndefined |})
       (fun error =>
          let finalError := error in
          ret {| data := VUndefined; error := finalError |}))%prog.

Definition trySync (fn : M value) : M Result :=
  (try_catch
     (let* data := fn in
      ret {| data := data; error := VUndefined |})
     (fun error =>
        let finalError := error in
        ret {| data := VUndefined; error := finalError |}))%prog.

(** [new WrappedError(message, cause)]: [super(message)] stores the message,
    then the constructor sets [name] and [cause].  ([captureStackTrace] only
    fills the [stack] property, which is not represented.) *)
Definition new_WrappedError (message : jsstring) (cause : value) : M value :=
  alloc {| proto := WrappedErrorPrototype;
           props := <["cause" := cause]>
                      (<["name" := VString (js "WrappedError")]>
                         (<["message" := VString message]> ∅)) |}.

Definition wrap (cause : value) (message : jsstring) : M value :=
  new_WrappedError message cause.

(** ** db/scripts/drop.ts *)

(** [db.execute] comes from the database module, which is outside the files
    studied here; it is a parameter.  Given the statement, the statements
    executed so far and the heap, it settles with rows or rejects with the
    driver's error, which it may have allocated. *)
Definition driver : Type :=
  statement -> list statement -> heap -> promise value * heap.

Definition db_execute (db : driver) (s : statement) : M (promise value) :=
  fun w =>
    let '(p, h') := db s (executed w) (heap_of w) in
    (Returns p,
     {| heap_of := h';
        console := console w;
        executed := executed w ++ [s] |}).

(** The [for (const schemaName of schemaNames)] loop, with the variable
    [success] threaded through. *)
Fixpoint drop_loop (db : driver) (schemaNames : list jsstring) (success : bool)
  : M bool :=
  match schemaNames with
  | [] => ret success
  | schemaName :: rest =>
      if negb (truthy (VString (JSString.trim schemaName))) then
        (console_warn [VString (js "Skipping empty schema name.")] ;;
         drop_loop db rest success)%prog
      else
        (let* query := db_execute db (DropSchemaIfExistsCascade schemaName) in
         let* settled := tryCatch query in
         let* result := await settled in
         if truthy (error result) then
           console_error
             [VString (js "Error dropping schema " ++ schemaName ++ js ":");
              error result] ;;
           drop_loop db rest false
         else
           console_log
             [VString (js "Successfully dropped schema: " ++ schemaName)] ;;
           drop_loop db rest success)%prog
  end.

Definition dropSchemas (db : driver) (schemaNames : list jsstring)
  : M (promise unit) :=
  async
    ((if (length schemaNames =? 0)%nat then
        console_log [VString (js "No schemas specified to drop.")] ;;
        process_exit 0
      else ret tt) ;;
     let* success := drop_loop db schemaNames true in
     if success : bool then
       console_log [VString (js "All specified schemas dropped successfully.")] ;;
       process_exit 0
     else
       console_error [VString (js "Some schemas failed to drop.")] ;;
       process_exit 1)%prog.

(** [dropSchemas(process.argv.slice(2))]. *)
Definition main (db : driver) (argv : list jsstring) : M (promise unit) :=
  let schemaNames := drop 2 argv in
  dropSchemas db schemaNames.

(** ** Vocabulary of the statements *)

(** An error-like value: an instance of [Error]. *)
Definition error_like (h : heap) (v : value) : Prop :=
  exists l o, v = VRef l /\ h !! l = Some o /\ is_error_object o = true.

(** A value that exists and is no instance of [Error]. *)
Definition not_error_like (h : heap) (v : value) : Prop :=
  match v with
  | VRef l => exists o, h !! l = Some o /\ is_error_object o = false
  | _ => True
  end.

(** [c] is the cause of the object [v], and the walk goes on to it. *)
Definition cause_link (h : heap) (v c : value) : Prop :=
  exists l o,
    v = VRef l /\ h !! l = Some o /\
    props o !! "cause" = Some c /\ error_like h c.

(** The walk stops at the object [v]: it has no [cause] field, or a [cause]
    that is [null] or [undefined], or one that is not error-like. *)
Definition terminal (h : heap) (v : value) : Prop :=
  exists l o,
    v = VRef l /\ h !! l = Some o /\
    (props o !! "cause" = None \/
     props o !! "cause" = Some VNull \/
     props o !! "cause" = Some VUndefined \/
     exists c, props o !! "cause" = Some c /\ not_error_like h c).

(** A cause chain of [n] links from [v] to its terminal value [t]. *)
Inductive chain (h : heap) : nat -> value -> value -> Prop :=
| chain_end v :
    terminal h v -> chain h 0 v v
| chain_link n v c t :
    cause_link h v c -> chain h n c t -> chain h (S n) v t.

(** Heaps in which every cause was allocated before the object that names
    it, as is the case when chains are only ever built by [wrap]. *)
Definition causes_older (h : heap) : Prop :=
  forall l o c,
    h !! l = Some o -> props o !! "cause" = Some (VRef c) -> c < l.

(** [wrap(... wrap(wrap(cause, m1), m2) ..., mk)] for the messages
    [m1; m2; ...; mk], innermost first. *)
Fixpoint wrap_all (cause : value) (messages : list jsstring) : M value :=
  match messages with
  | [] => ret cause
  | m :: ms => (let* e := wrap cause m in wrap_all e ms)%prog
  end.

(** A name the script skips. *)
Definition blank (schemaName : jsstring) : bool :=
  JSString.is_empty (JSString.trim schemaName).

(** The drops the script attempts for a list of names, in order, each with
    the way the database settles it; [hist] and [h] are the statements
    executed before and the heap. *)
Fixpoint attempts (db : driver) (schemaNames : list jsstring)
    (hist : list statement) (h : heap) : list (jsstring * promise value) :=
  match schemaNames with
  | [] => []
  | s :: rest =>
      if blank s then attempts db rest hist h
      else
        let '(p, h') := db (DropSchemaIfExistsCascade s) hist h in
        (s, p) :: attempts db rest (hist ++ [DropSchemaIfExistsCascade s]) h'
  end.

Definition fulfilled {A} (p : promise A) : Prop :=
  match p with Fulfilled _ => True | Rejected _ => False end.

(** The console entries of the script. *)
Definition no_op_message : level * list value :=
  (LogLevel, [VString (js "No schemas specified to drop.")]).
Definition skip_warning : level * list value :=
  (WarnLevel, [VString (js "Skipping empty schema name.")]).
Definition success_message (s : jsstring) : level * list value :=
  (LogLevel, [VString (js "Successfully dropped schema: " ++ s)]).
Definition failure_message (s : jsstring) (e : value) : level * list value :=
  (ErrorLevel, [VString (js "Error dropping schema " ++ s ++ js ":"); e]).
Definition all_success_message : level * list value :=
  (LogLevel, [VString (js "All specified schemas dropped successfully.")]).
Definition some_failed_message : level * list value :=
  (ErrorLevel, [VString (js "Some schemas failed to drop.")]).

(** Whether the script takes a settled drop for a failure: it tests
    [result.error] for truthiness. *)
Definition reported_failure (p : promise value) : bool :=
  match p with
  | Fulfilled _ => false
  | Rejected e => truthy e
  end.

(** What the loop prints for a list of names. *)
Fixpoint transcript (db : driver) (schemaNames : list jsstring)
    (hist : list statement) (h : heap) : list (level * list value) :=
  match schemaNames with
  | [] => []
  | s :: rest =>
      if blank s then skip_warning :: transcript db rest hist h
      else
        let '(p, h') := db (DropSchemaIfExistsCascade s) hist h in
        match p with
        | Rejected e =>
            if truthy e then failure_message s e else success_message s
        | Fulfilled _ => success_message s
        end :: transcript db rest (hist ++ [DropSchemaIfExistsCascade s]) h'
  end.

Global Instance level_eq_dec : EqDecision level.
Proof. solve_decision. Defined.

Definition is_skip_warning (entry : level * list value) : bool :=
  bool_decide (entry = skip_warning).

(** Two databases for the examples: one on which every drop succeeds and
    one that denies every drop with a fresh error object. *)
Definition accepting : driver :=
  fun _ _ h => (Fulfilled VUndefined, h).

Definition denying : driver :=
  fun _ _ h =>
    (Rejected (VRef (length h)),
     h ++ [{| proto := ErrorPrototype;
              props := <["message" := VString (js "permission denied")]> ∅ |}]).

(** The rendering of a chain: each message of [messages] (innermost first)
    put in front of what is rendered so far. *)
Definition render_chain (messages : list jsstring) (rendered : jsstring)
  : jsstring :=
  fold_left (fun acc m => m ++ js ": " ++ acc) messages rendered.

(** Heaps in which the [name] and [message] an object carries are strings,
    as the declared type of [Error] has them. *)
Definition string_fields (h : heap) : Prop :=
  forall l o key v,
    h !! l = Some o ->
    key = "name"%string \/ key = "message"%string ->
    props o !! key = Some v ->
    exists s, v = VString s.

(** What the script prints for one entry. *)
Definition entry_report (schemaName : jsstring) (entry : level * list value)
  : Prop :=
  if blank schemaName then entry = skip_warning
  else entry = success_message schemaName \/
       exists e, entry = failure_message schemaName e.

(** * Properties *)

(** ** The [Result] wrappers *)

(** C1. Awaiting a promise that resolves with [v], [tryCatch] settles with
    the result whose [data] is [v] and whose [error] is [undefined]; nothing
    else happens. *)
Theorem tryCatch_resolved (v : value) (w : world) :
  tryCatch (Fulfilled v) w
  = (Returns (Fulfilled {| data := v; error := VUndefined |}), w).
Proof. reflexivity. Qed.

(** C2. Awaiting a promise that rejects with any thrown value [e], error or
    not, [tryCatch] is fulfilled with the result whose [error] is that very
    [e] and whose [data] is [undefined], and the heap in which [e] lives is
    left as it was.  Whatever the promise, [tryCatch] neither throws nor
    rejects. *)
Theorem tryCatch_rejected (e : value) (w : world) :
  tryCatch (Rejected e) w
    = (Returns (Fulfilled {| data := VUndefined; error := e |}), w) /\
  (forall p : promise value,
     exists result, tryCatch p w = (Returns (Fulfilled result), w)).
Proof.
  split; [reflexivity|].
  intros [v|e']; eexists; reflexivity.
Qed.

(** C3. If the callable returns [v], [trySync] returns the result with
    [data = v] and [error] undefined; if it throws [e], [trySync] returns
    normally, with [error = e] and [data] undefined. *)
Theorem trySync_spec (fn : M value) (w w' : world) :
  (forall v, fn w = (Returns v, w') ->
     trySync fn w = (Returns {| data := v; error := VUndefined |}, w')) /\
  (forall e, fn w = (Throws e, w') ->
     trySync fn w = (Returns {| data := VUndefined; error := e |}, w')).
Proof.
  unfold trySync, try_catch, bind, ret.
  split; intros x Hfn; rewrite Hfn; reflexivity.
Qed.

Lemma trySync_spec_witness :
  let w := World [] [] [] in
  trySync (ret (VBool false)) w
    = (Returns {| data := VBool false; error := VUndefined |}, w) /\
  trySync (throw (VString (js "boom"))) w
    = (Returns {| data := VUndefined; error := VString (js "boom") |}, w).
Proof.
  intros w. split.
  - apply (proj1 (trySync_spec (ret (VBool false)) w w)). reflexivity.
  - apply (proj2 (trySync_spec (throw (VString (js "boom"))) w w)). reflexivity.
Defined.

(** ** Wrapping *)

Lemma lookup_fresh (h : heap) (o : object) :
  (h ++ [o]) !! length h = Some o.
Proof.
  rewrite lookup_app_r by lia. now rewrite Nat.sub_diag.
Qed.

Lemma lookup_extend (h h' : heap) (l : loc) (o : object) :
  h !! l = Some o -> (h ++ h') !! l = Some o.
Proof. apply lookup_app_l_Some. Qed.

(** What a call of [wrap] does to the world. *)
Lemma wrap_run (cause : value) (message : jsstring) (w : world) :
  wrap cause message w
  = (Returns (VRef (length (heap_of w))),
     {| heap_of :=
          heap_of w ++
          [{| proto := WrappedErrorPrototype;
              props := <["cause" := cause]>
                         (<["name" := VString (js "WrappedError")]>
                            (<["message" := VString message]> ∅)) |}];
        console := console w;
        executed := executed w |}).
Proof. reflexivity. Qed.

Lemma wrapped_cause (cause : value) (message : jsstring) :
  (<["cause" := cause]>
     (<["name" := VString (js "WrappedError")]>
        (<["message" := VString message]> (∅ : gmap string value))))
  !! "cause" = Some cause.
Proof. apply lookup_insert_eq. Qed.

Lemma wrapped_message (cause : value) (message : jsstring) :
  (<["cause" := cause]>
     (<["name" := VString (js "WrappedError")]>
        (<["message" := VString message]> (∅ : gmap string value))))
  !! "message" = Some (VString message).
Proof.
  rewrite lookup_insert_ne by discriminate.
  rewrite lookup_insert_ne by discriminate.
  apply lookup_insert_eq.
Qed.

Lemma wrapped_name (cause : value) (message : jsstring) :
  (<["cause" := cause]>
     (<["name" := VString (js "WrappedError")]>
        (<["message" := VString message]> (∅ : gmap string value))))
  !! "name" = Some (VString (js "WrappedError")).
Proof.
  rewrite lookup_insert_ne by discriminate.
  apply lookup_insert_eq.
Qed.

(** C4. [wrap(cause, message)] returns a new object (its location was free,
    and every object that existed keeps its place and content) of the
    [WrappedError] class, whose [message] is [message], whose [name] is
    ["WrappedError"], and whose [unwrap()] gives back [cause] itself. *)
Theorem wrap_unwrap (cause : value) (message : jsstring) (w : world) :
  exists l o w',
    wrap cause message w = (Returns (VRef l), w') /\
    heap_of w !! l = None /\
    heap_of w' !! l = Some o /\
    (forall l' o', heap_of w !! l' = Some o' -> heap_of w' !! l' = Some o') /\
    proto o = WrappedErrorPrototype /\
    get o "message" = VString message /\
    get o "name" = VString (js "WrappedError") /\
    WrappedError.unwrap (heap_of w') (VRef l) = Some (Normal cause).
Proof.
  eexists _, _, _. rewrite wrap_run. split; [reflexivity|]. cbn [heap_of].
  split; [apply lookup_ge_None; lia|].
  split; [apply lookup_fresh|].
  split; [intros l' o'; apply lookup_extend|].
  split; [reflexivity|].
  unfold get, WrappedError.unwrap. cbn [props proto].
  rewrite lookup_fresh. cbn [props proto]. unfold get. cbn [props].
  now rewrite wrapped_message, wrapped_name, wrapped_cause.
Qed.

(** ** Rendering *)

Lemma eval_bind_mono {A B} (m m' : eval A) (k k' : A -> eval B)
    (r : completion B) :
  (forall x, m = Some x -> m' = Some x) ->
  (forall a x, k a = Some x -> k' a = Some x) ->
  eval_bind m k = Some r -> eval_bind m' k' = Some r.
Proof.
  intros Hm Hk. destruct m as [[a|]|]; cbn; intros H.
  - rewrite (Hm _ eq_refl). cbn. eauto.
  - rewrite (Hm _ eq_refl). exact H.
  - discriminate.
Qed.

(** A rendering that succeeded only read objects that exist, so it is the
    same in any larger heap. *)
Lemma ToString_extend (f g : value -> eval jsstring) (v : value)
    (r : completion jsstring) :
  (forall v' r', f v' = Some r' -> g v' = Some r') ->
  WrappedError.ToString f v = Some r -> WrappedError.ToString g v = Some r.
Proof.
  intros Hfg. destruct v; cbn; auto.
Qed.

Lemma Error_toString_extend (f g : value -> eval jsstring) (o : object)
    (r : completion jsstring) :
  (forall v' r', f v' = Some r' -> g v' = Some r') ->
  WrappedError.Error_toString f o = Some r ->
  WrappedError.Error_toString g o = Some r.
Proof.
  intros Hfg. unfold WrappedError.Error_toString.
  apply eval_bind_mono.
  - intros x. destruct (get o "name"); auto; apply ToString_extend, Hfg.
  - intros name x. apply eval_bind_mono; [|auto].
    intros y. destruct (get o "message"); auto; apply ToString_extend, Hfg.
Qed.

Lemma toString_extend (fuel : nat) (h h' : heap) (v : value)
    (r : completion jsstring) :
  WrappedError.toString fuel h v = Some r ->
  WrappedError.toString fuel (h ++ h') v = Some r.
Proof.
  revert v r. induction fuel as [|fuel IH]; intros v r.
  - destruct v; cbn; congruence.
  - destruct v as [| | | |l]; cbn; try congruence.
    destruct (h !! l) as [o|] eqn:Hl; [|discriminate].
    rewrite (lookup_extend _ h' _ _ Hl).
    destruct (proto o).
    + auto.
    + apply Error_toString_extend, IH.
    + apply eval_bind_mono.
      * intros x. apply ToString_extend, IH.
      * intros m x. apply eval_bind_mono; [|auto]. intros y. apply IH.
Qed.

Lemma toString_string (fuel : nat) (h : heap) (s : jsstring) :
  WrappedError.toString fuel h (VString s) = Some (Normal s).
Proof. destruct fuel; reflexivity. Qed.

(** The method of the class: own message, separator, rendering of the
    cause. *)
Lemma toString_wrapped (fuel : nat) (h : heap) (l : loc) (o : object)
    (message : jsstring) :
  h !! l = Some o ->
  proto o = WrappedErrorPrototype ->
  get o "message" = VString message ->
  WrappedError.toString (S fuel) h (VRef l)
  = match WrappedError.toString fuel h (get o "cause") with
    | Some (Normal rendered) => Some (Normal (message ++ js ": " ++ rendered))
    | other => other
    end.
Proof.
  intros Hl Hp Hm. cbn [WrappedError.toString]. rewrite Hl, Hp, Hm.
  cbn [WrappedError.ToString]. rewrite toString_string.
  destruct (WrappedError.toString fuel h (get o "cause")) as [[c|]|];
    reflexivity.
Qed.

Lemma wrap_inv (cause : value) (message : jsstring) (w w' : world)
    (e : value) :
  wrap cause message w = (Returns e, w') ->
  e = VRef (length (heap_of w)) /\
  heap_of w' =
    heap_of w ++
    [{| proto := WrappedErrorPrototype;
        props := <["cause" := cause]>
                   (<["name" := VString (js "WrappedError")]>
                      (<["message" := VString message]> ∅)) |}].
Proof.
  rewrite wrap_run. intros H. injection H as <- <-. split; reflexivity.
Qed.

(** Rendering a freshly wrapped error. *)
Lemma toString_wrap (cause : value) (message : jsstring) (w w' : world)
    (e : value) (fuel : nat) (rendered : jsstring) :
  wrap cause message w = (Returns e, w') ->
  WrappedError.toString fuel (heap_of w) cause = Some (Normal rendered) ->
  WrappedError.toString (S fuel) (heap_of w') e
  = Some (Normal (message ++ js ": " ++ rendered)).
Proof.
  intros Hw Hr. apply wrap_inv in Hw as [-> ->].
  erewrite toString_wrapped; [|apply lookup_fresh|reflexivity|].
  - unfold get. cbn [props]. rewrite wrapped_cause.
    now rewrite (toString_extend _ _ _ _ _ Hr).
  - unfold get. cbn [props]. now rewrite wrapped_message.
Qed.

(** C7. The rendering of a [WrappedError] is its own message, then [": "],
    then the rendering of its immediate cause, whatever that cause is; so
    when [rootCause] renders as [rendered], [wrap(wrap(rootCause, b), a)]
    renders as [a: b: rendered] (two more nested calls than [rootCause]
    needs). *)
Theorem toString_chain :
  (forall (fuel : nat) (h : heap) (l : loc) (o : object) (message : jsstring),
     h !! l = Some o ->
     proto o = WrappedErrorPrototype ->
     get o "message" = VString message ->
     WrappedError.toString (S fuel) h (VRef l)
     = match WrappedError.toString fuel h (get o "cause") with
       | Some (Normal rendered) =>
           Some (Normal (message ++ js ": " ++ rendered))
       | other => other
       end) /\
  (forall (rootCause : value) (a b : jsstring) (w w1 w2 : world)
          (cause outer : value) (fuel : nat) (rendered : jsstring),
     WrappedError.toString fuel (heap_of w) rootCause
       = Some (Normal rendered) ->
     wrap rootCause b w = (Returns cause, w1) ->
     wrap cause a w1 = (Returns outer, w2) ->
     WrappedError.toString (S (S fuel)) (heap_of w2) outer
     = Some (Normal (a ++ js ": " ++ b ++ js ": " ++ rendered))).
Proof.
  split.
  - intros. now apply toString_wrapped.
  - intros rootCause a b w w1 w2 cause outer fuel rendered Hr H1 H2.
    eapply toString_wrap; [exact H2|].
    eapply toString_wrap; [exact H1|exact Hr].
Qed.

Lemma toString_chain_witness :
  let root :=
    {| proto := ErrorPrototype;
       props := <["message" := VString (js "boom")]> ∅ |} in
  let w := World [root] [] [] in
  let w1 := snd (wrap (VRef 0) (js "B") w) in
  let w2 := snd (wrap (VRef 1) (js "A") w1) in
  WrappedError.toString 3 (heap_of w2) (VRef 2)
  = Some (Normal (js "A: B: Error: boom")).
Proof.
  intros root w w1 w2.
  exact (proj2 toString_chain (VRef 0) (js "A") (js "B") w w1 w2
           (VRef 1) (VRef 2) 1 (js "Error: boom")
           eq_refl eq_refl eq_refl).
Defined.

(** C9. Two calls of [wrap] with the same cause and message give two
    different objects; [unwrap()] of either is the one [cause]; the two
    render alike, and as [message: rendered] when the cause renders as
    [rendered]. *)
Theorem wrap_twice (cause : value) (message : jsstring) (w : world) :
  exists first w1 second w2,
    wrap cause message w = (Returns first, w1) /\
    wrap cause message w1 = (Returns second, w2) /\
    first <> second /\
    WrappedError.unwrap (heap_of w1) first = Some (Normal cause) /\
    WrappedError.unwrap (heap_of w2) first = Some (Normal cause) /\
    WrappedError.unwrap (heap_of w2) second = Some (Normal cause) /\
    (forall fuel,
       WrappedError.toString fuel (heap_of w2) first
       = WrappedError.toString fuel (heap_of w2) second) /\
    (forall fuel rendered,
       WrappedError.toString fuel (heap_of w) cause = Some (Normal rendered) ->
       WrappedError.toString (S fuel) (heap_of w2) first
         = Some (Normal (message ++ js ": " ++ rendered)) /\
       WrappedError.toString (S fuel) (heap_of w2) second
         = Some (Normal (message ++ js ": " ++ rendered))).
Proof.
  eexists _, _, _, _.
  split; [apply wrap_run|]. split; [apply wrap_run|]. cbn [heap_of].
  set (o := {| proto := WrappedErrorPrototype; props := _ |}).
  assert (H1 : (heap_of w ++ [o]) !! length (heap_of w) = Some o)
    by apply lookup_fresh.
  assert (H1' : ((heap_of w ++ [o]) ++ [o]) !! length (heap_of w) = Some o)
    by (apply lookup_extend, H1).
  assert (H2 : ((heap_of w ++ [o]) ++ [o]) !! length (heap_of w ++ [o])
               = Some o) by apply lookup_fresh.
  assert (Hc : get o "cause" = cause)
    by (unfold get; cbn [props o]; now rewrite wrapped_cause).
  assert (Hm : get o "message" = VString message)
    by (unfold get; cbn [props o]; now rewrite wrapped_message).
  split.
  { intros Heq. injection Heq. rewrite length_app. cbn. lia. }
  unfold WrappedError.unwrap. rewrite H1, H1', H2. cbn [proto o]. rewrite Hc.
  repeat (split; [reflexivity|]).
  split.
  - intros [|fuel]; [reflexivity|].
    cbn [WrappedError.toString]. now rewrite H1', H2.
  - intros fuel rendered Hr.
    rewrite (toString_wrapped _ _ _ _ _ H1' eq_refl Hm).
    rewrite (toString_wrapped _ _ _ _ _ H2 eq_refl Hm).
    rewrite Hc.
    rewrite <- app_assoc.
    now rewrite (toString_extend _ _ _ _ _ Hr).
Qed.

Lemma wrap_twice_witness :
  let root :=
    {| proto := ErrorPrototype;
       props := <["message" := VString (js "boom")]> ∅ |} in
  exists first w1 second w2,
    wrap (VRef 0) (js "ctx") (World [root] [] []) = (Returns first, w1) /\
    wrap (VRef 0) (js "ctx") w1 = (Returns second, w2) /\
    first <> second /\
    WrappedError.toString 2 (heap_of w2) first
      = Some (Normal (js "ctx: Error: boom")) /\
    WrappedError.toString 2 (heap_of w2) second
      = Some (Normal (js "ctx: Error: boom")).
Proof.
  intros root.
  destruct (wrap_twice (VRef 0) (js "ctx") (World [root] [] []))
    as (first & w1 & second & w2 & H1 & H2 & Hne & _ & _ & _ & _ & Hr).
  exists first, w1, second, w2.
  repeat (split; [assumption|]).
  exact (Hr 1 (js "Error: boom") eq_refl).
Defined.

(** ** Walking the cause chain *)

Lemma has_cause_property (o : object) :
  has_property o "cause" = bool_decide (is_Some (props o !! "cause")).
Proof.
  unfold has_property. destruct (props o !! "cause") as [c|].
  - symmetry. apply bool_decide_eq_true. eauto.
  - destruct (proto o); reflexivity.
Qed.

Lemma get_own (o : object) (key : string) (v : value) :
  props o !! key = Some v -> get o key = v.
Proof. unfold get. now intros ->. Qed.

Lemma instanceof_error_like (h : heap) (v : value) :
  instanceof_Error h v = Some (Normal true) <-> error_like h v.
Proof.
  unfold instanceof_Error, error_like, eval_ret. split.
  - destruct v as [| | | |l]; try discriminate.
    destruct (h !! l) as [o|] eqn:Hl; [|discriminate].
    intros [= Ho]. eauto.
  - intros (l & o & -> & -> & ->). reflexivity.
Qed.

Lemma instanceof_not_error_like (h : heap) (v : value) :
  instanceof_Error h v = Some (Normal false) <->
  not_error_like h v.
Proof.
  unfold instanceof_Error, not_error_like, eval_ret.
  destruct v as [| | | |l]; try tauto.
  destruct (h !! l) as [o|] eqn:Hl; split.
  - intros [= Ho]. eauto.
  - intros (o' & [= <-] & ->). reflexivity.
  - discriminate.
  - intros (o' & [=] & _).
Qed.

(** The loop goes round exactly on a cause link. *)
Lemma has_error_cause_true (h : heap) (v : value) :
  WrappedError.has_error_cause h v = Some (Normal true) <->
  exists c, cause_link h v c.
Proof.
  unfold WrappedError.has_error_cause, cause_link. split.
  - destruct v as [| | | |l]; try discriminate.
    destruct (h !! l) as [o|] eqn:Hl; [|discriminate].
    rewrite has_cause_property.
    destruct (props o !! "cause") as [c|] eqn:Hc; [|discriminate].
    rewrite (get_own _ _ _ Hc). cbn.
    destruct (not_nullish c); [|discriminate].
    intros H. apply instanceof_error_like in H. eauto 8.
  - intros (c & l & o & -> & -> & Hc & He).
    rewrite has_cause_property, Hc, (get_own _ _ _ Hc).
    apply instanceof_error_like in He as Hi.
    destruct He as (lc & oc & -> & _). exact Hi.
Qed.

(** The loop stops exactly on a terminal object. *)
Lemma has_error_cause_false (h : heap) (v : value) :
  WrappedError.has_error_cause h v = Some (Normal false) <-> terminal h v.
Proof.
  unfold WrappedError.has_error_cause, terminal. split.
  - destruct v as [| | | |l]; try discriminate.
    destruct (h !! l) as [o|] eqn:Hl; [|discriminate].
    rewrite has_cause_property. intros H. exists l, o.
    split; [reflexivity|]. split; [exact Hl|].
    destruct (props o !! "cause") as [c|] eqn:Hc; [|tauto].
    rewrite (get_own _ _ _ Hc) in H. cbn in H.
    destruct c as [| | | |lc]; try tauto; right; right; right;
      eexists; (split; [reflexivity|]); try exact I.
    now apply instanceof_not_error_like.
  - intros (l & o & -> & -> & H). rewrite has_cause_property.
    destruct H as [Hc|[Hc|[Hc|(c & Hc & Hn)]]]; rewrite Hc;
      try rewrite (get_own _ _ _ Hc); try reflexivity.
    apply instanceof_not_error_like in Hn.
    destruct c; try reflexivity; exact Hn.
Qed.

Lemma get_cause_link (h : heap) (v c : value) :
  cause_link h v c -> WrappedError.get_cause h v = Some (Normal c).
Proof.
  intros (l & o & -> & Hl & Hc & _). cbn. rewrite Hl.
  now rewrite (get_own _ _ _ Hc).
Qed.

Lemma cause_link_functional (h : heap) (v c c' : value) :
  cause_link h v c -> cause_link h v c' -> c = c'.
Proof.
  intros H H'. apply get_cause_link in H, H'. congruence.
Qed.

(** On a chain of [n] links the loop tests its condition [n + 1] times and
    returns the terminal value. *)
Lemma cause_loop_chain (h : heap) (n : nat) (v t : value) :
  chain h n v t ->
  forall fuel,
    WrappedError.cause_loop fuel h v
    = if (n <? fuel)%nat then Some (Normal t) else None.
Proof.
  induction 1 as [v Ht|n v c t Hl Hc IH]; intros [|fuel]; try reflexivity.
  - cbn [WrappedError.cause_loop].
    apply has_error_cause_false in Ht. now rewrite Ht.
  - cbn [WrappedError.cause_loop].
    rewrite (proj2 (has_error_cause_true h v)) by eauto. cbn [eval_bind].
    rewrite (get_cause_link _ _ _ Hl). cbn [eval_bind]. rewrite IH.
    reflexivity.
Qed.

(** Whatever the loop returns is the end of a chain it walked. *)
Lemma cause_loop_sound (fuel : nat) (h : heap) (v t : value) :
  WrappedError.cause_loop fuel h v = Some (Normal t) ->
  exists n, n < fuel /\ chain h n v t.
Proof.
  revert v. induction fuel as [|fuel IH]; intros v; [discriminate|].
  cbn [WrappedError.cause_loop].
  destruct (WrappedError.has_error_cause h v) as [[[]|]|] eqn:Hcond;
    cbn [eval_bind]; try discriminate.
  - apply has_error_cause_true in Hcond as [c Hc].
    rewrite (get_cause_link _ _ _ Hc). cbn [eval_bind]. intros H.
    apply IH in H as (n & Hn & Hch).
    exists (S n). split; [lia|]. econstructor; eassumption.
  - intros [= <-]. apply has_error_cause_false in Hcond.
    exists 0. split; [lia|]. now constructor.
Qed.

(** Chains only read objects that exist: a larger heap has them too. *)
Lemma error_like_extend (h h' : heap) (v : value) :
  error_like h v -> error_like (h ++ h') v.
Proof.
  intros (l & o & -> & Hl & Ho). exists l, o. eauto using lookup_extend.
Qed.

Lemma not_error_like_extend (h h' : heap) (v : value) :
  not_error_like h v -> not_error_like (h ++ h') v.
Proof.
  destruct v as [| | | |l]; cbn; auto.
  intros (o & Hl & Ho). eauto using lookup_extend.
Qed.

Lemma terminal_extend (h h' : heap) (v : value) :
  terminal h v -> terminal (h ++ h') v.
Proof.
  intros (l & o & -> & Hl & H). exists l, o.
  split; [reflexivity|]. split; [eauto using lookup_extend|].
  destruct H as [H|[H|[H|(c & Hc & Hn)]]]; auto.
  right; right; right. eauto using not_error_like_extend.
Qed.

Lemma cause_link_extend (h h' : heap) (v c : value) :
  cause_link h v c -> cause_link (h ++ h') v c.
Proof.
  intros (l & o & -> & Hl & Hc & He). exists l, o.
  eauto 6 using lookup_extend, error_like_extend.
Qed.

Lemma chain_extend (h h' : heap) (n : nat) (v t : value) :
  chain h n v t -> chain (h ++ h') n v t.
Proof.
  induction 1; econstructor;
    eauto using terminal_extend, cause_link_extend.
Qed.

(** One more [wrap] puts one more link in front of the chain. *)
Lemma wrap_chain (cause : value) (message : jsstring) (w w' : world)
    (e : value) (n : nat) (t : value) :
  wrap cause message w = (Returns e, w') ->
  error_like (heap_of w) cause ->
  chain (heap_of w) n cause t ->
  error_like (heap_of w') e /\ chain (heap_of w') (S n) e t.
Proof.
  intros Hw He Hch. apply wrap_inv in Hw as [-> ->]. split.
  - eexists _, _. split; [reflexivity|]. split; [apply lookup_fresh|].
    reflexivity.
  - econstructor; [|apply chain_extend, Hch].
    eexists _, _. split; [reflexivity|]. split; [apply lookup_fresh|].
    cbn [props]. split; [apply wrapped_cause|].
    now apply error_like_extend.
Qed.

Lemma wrap_all_chain (messages : list jsstring) :
  forall (cause : value) (w : world) (n : nat) (t : value),
    error_like (heap_of w) cause ->
    chain (heap_of w) n cause t ->
    exists outer w',
      wrap_all cause messages w = (Returns outer, w') /\
      error_like (heap_of w') outer /\
      chain (heap_of w') (length messages + n) outer t.
Proof.
  induction messages as [|m ms IH]; intros cause w n t He Hch.
  - exists cause, w. auto.
  - cbn [wrap_all]. unfold bind.
    destruct (wrap cause m w) as [r w1] eqn:Hw.
    pose proof Hw as Hw'. rewrite wrap_run in Hw'. injection Hw' as <- <-.
    destruct (wrap_chain _ _ _ _ _ _ _ Hw He Hch) as [He1 Hch1].
    destruct (IH _ _ _ _ He1 Hch1) as (outer & w' & -> & He' & Hch').
    exists outer, w'. split; [reflexivity|]. split; [assumption|].
    now replace (length (m :: ms) + n) with (length ms + S n) by (cbn; lia).
Qed.

(** C5. [WrappedError.cause] returns a value exactly when that value ends
    the cause chain of its argument, that is when links from an object to
    an error-like [cause] lead to an object that has no [cause] field, or a
    [null] or [undefined] one, or one that is not error-like.  So an error
    that ends a chain, wrapped any number of times, is what the walk over
    the outermost wrapper returns, and a plain error is returned as it
    is. *)
Theorem cause_root :
  (forall (h : heap) (error t : value),
     (exists fuel, WrappedError.cause fuel h error = Some (Normal t)) <->
     (exists n, chain h n error t)) /\
  (forall (w : world) (rootCause : value) (messages : list jsstring),
     error_like (heap_of w) rootCause ->
     terminal (heap_of w) rootCause ->
     exists outer w',
       wrap_all rootCause messages w = (Returns outer, w') /\
       WrappedError.cause (S (length messages)) (heap_of w') outer
       = Some (Normal rootCause)) /\
  (forall (h : heap) (error : value),
     terminal h error ->
     WrappedError.cause 1 h error = Some (Normal error)).
Proof.
  unfold WrappedError.cause. repeat split.
  - intros [fuel H]. apply cause_loop_sound in H as (n & _ & H). eauto.
  - intros [n H]. exists (S n).
    rewrite (cause_loop_chain _ _ _ _ H).
    now rewrite (proj2 (Nat.ltb_lt n (S n))) by lia.
  - intros w rootCause messages He Ht.
    destruct (wrap_all_chain messages rootCause w 0 rootCause He)
      as (outer & w' & Hw & _ & Hch); [now constructor|].
    exists outer, w'. split; [exact Hw|].
    rewrite (cause_loop_chain _ _ _ _ Hch).
    now rewrite (proj2 (Nat.ltb_lt _ _)) by lia.
  - intros h error Ht.
    now rewrite (cause_loop_chain h 0 error error) by now constructor.
Qed.

Lemma cause_root_witness :
  let root :=
    {| proto := ErrorPrototype;
       props := <["message" := VString (js "boom")]> ∅ |} in
  let w := World [root] [] [] in
  exists outer w',
    wrap_all (VRef 0) [js "B"; js "A"] w = (Returns outer, w') /\
    WrappedError.cause 3 (heap_of w') outer = Some (Normal (VRef 0)).
Proof.
  intros root w.
  apply (proj1 (proj2 cause_root) w (VRef 0) [js "B"; js "A"]).
  - exists 0, root. repeat split.
  - exists 0, root. split; [reflexivity|]. split; [reflexivity|].
    left. reflexivity.
Defined.

(** Every cause is older than its wrapper in a heap where [wrap] is the
    only source of [cause] fields. *)
Lemma wrap_causes_older (cause : value) (message : jsstring) (w w' : world)
    (e : value) :
  wrap cause message w = (Returns e, w') ->
  (forall c, cause = VRef c -> c < length (heap_of w)) ->
  causes_older (heap_of w) ->
  causes_older (heap_of w').
Proof.
  intros Hw Hc Hold. apply wrap_inv in Hw as [-> ->].
  intros l o c Hl Hp.
  destruct (decide (l < length (heap_of w))) as [Hlt|Hge].
  - rewrite lookup_app_l in Hl by exact Hlt. eauto.
  - apply lookup_lt_Some in Hl as Hlen. rewrite length_app in Hlen.
    cbn in Hlen. assert (l = length (heap_of w)) as -> by lia.
    rewrite lookup_fresh in Hl. injection Hl as <-. cbn [props] in Hp.
    rewrite wrapped_cause in Hp. injection Hp as ->. now apply Hc.
Qed.

(** In such a heap every object starts a chain, no longer than its own
    location. *)
Lemma causes_older_chain (h : heap) :
  causes_older h ->
  forall l, l < length h -> exists n t, n <= l /\ chain h n (VRef l) t.
Proof.
  intros Hold l. induction l as [l IH] using lt_wf_ind. intros Hl.
  destruct (lookup_lt_is_Some_2 h l Hl) as [o Ho].
  assert (Hend : terminal h (VRef l) ->
                 exists n t, n <= l /\ chain h n (VRef l) t).
  { intros Ht. exists 0, (VRef l). split; [lia|]. now constructor. }
  destruct (props o !! "cause") as [c|] eqn:Hc.
  2: { apply Hend. exists l, o. auto. }
  destruct c as [| | | |lc];
    try (apply Hend; exists l, o; split; [reflexivity|]; split; [exact Ho|];
         tauto || (right; right; right; eexists; split; [exact Hc|exact I])).
  pose proof (Hold _ _ _ Ho Hc) as Hlt.
  destruct (lookup_lt_is_Some_2 h lc ltac:(lia)) as [oc Hoc].
  destruct (is_error_object oc) eqn:He.
  - destruct (IH lc Hlt ltac:(lia)) as (n & t & Hn & Hch).
    exists (S n), t. split; [lia|]. econstructor; [|exact Hch].
    exists l, o. split; [reflexivity|]. split; [exact Ho|].
    split; [exact Hc|]. exists lc, oc. auto.
  - apply Hend. exists l, o. split; [reflexivity|]. split; [exact Ho|].
    right; right; right. exists (VRef lc). split; [exact Hc|].
    exists oc. auto.
Qed.

(** C6. On a cause chain of [n] links the walk of [WrappedError.cause]
    ends: it tests the loop condition [n + 1] times, takes [n] steps and
    returns the end of the chain, however long the chain is; with fewer
    tests allowed it has not finished.  Where every cause is older than the
    object that names it (all that [wrap] can build), each object starts
    such a chain, no longer than its location in the heap. *)
Theorem cause_terminates :
  (forall (h : heap) (n : nat) (error t : value),
     chain h n error t ->
     forall fuel,
       WrappedError.cause fuel h error
       = if (n <? fuel)%nat then Some (Normal t) else None) /\
  (forall (h : heap),
     causes_older h ->
     forall l, l < length h ->
       exists n t,
         n <= l /\ chain h n (VRef l) t /\
         WrappedError.cause (S n) h (VRef l) = Some (Normal t)).
Proof.
  split.
  - intros h n error t Hch fuel. now apply cause_loop_chain.
  - intros h Hold l Hl.
    destruct (causes_older_chain h Hold l Hl) as (n & t & Hn & Hch).
    exists n, t. split; [exact Hn|]. split; [exact Hch|].
    unfold WrappedError.cause. rewrite (cause_loop_chain _ _ _ _ Hch).
    now rewrite (proj2 (Nat.ltb_lt n (S n))) by lia.
Qed.

Lemma cause_terminates_witness :
  let root :=
    {| proto := ErrorPrototype;
       props := <["message" := VString (js "boom")]> ∅ |} in
  let wrapper :=
    {| proto := WrappedErrorPrototype;
       props := <["cause" := VRef 0]>
                  (<["name" := VString (js "WrappedError")]>
                     (<["message" := VString (js "ctx")]> ∅)) |} in
  let h := [root; wrapper] in
  (WrappedError.cause 2 h (VRef 1) = Some (Normal (VRef 0)) /\
   WrappedError.cause 1 h (VRef 1) = None) /\
  exists n t,
    n <= 1 /\ chain h n (VRef 1) t /\
    WrappedError.cause (S n) h (VRef 1) = Some (Normal t).
Proof.
  intros root wrapper h.
  assert (Hroot : terminal h (VRef 0)).
  { exists 0, root. split; [reflexivity|]. split; [reflexivity|].
    left. reflexivity. }
  assert (Hch : chain h 1 (VRef 1) (VRef 0)).
  { econstructor; [|constructor; exact Hroot].
    exists 1, wrapper. split; [reflexivity|]. split; [reflexivity|].
    split; [reflexivity|]. exists 0, root. repeat split. }
  assert (Hold : causes_older h).
  { intros [|[|l]] o c Hl Hc; cbn in Hl; try discriminate;
      injection Hl as <-.
    - vm_compute in Hc. discriminate Hc.
    - vm_compute in Hc. injection Hc as <-. lia. }
  split.
  - pose proof (proj1 cause_terminates h 1 (VRef 1) (VRef 0) Hch) as H.
    split; [exact (H 2)|exact (H 1)].
  - apply (proj2 cause_terminates h Hold 1). cbn. lia.
Defined.

(** ** The drop script *)

Lemma blank_test (s : jsstring) :
  negb (truthy (VString (JSString.trim s))) = blank s.
Proof. unfold blank. cbn. apply negb_involutive. Qed.

(** The loop, run on any names from any world: it returns, having executed
    the attempted drops in order and printed the transcript. *)
Lemma drop_loop_run (db : driver) (schemaNames : list jsstring) :
  forall (success : bool) (w : world),
  exists h',
    drop_loop db schemaNames success w
    = (Returns
         (success &&
          forallb (fun a => negb (reported_failure (snd a)))
            (attempts db schemaNames (executed w) (heap_of w))),
       {| heap_of := h';
          console :=
            console w ++ transcript db schemaNames (executed w) (heap_of w);
          executed :=
            executed w ++
            map (fun a => DropSchemaIfExistsCascade (fst a))
              (attempts db schemaNames (executed w) (heap_of w)) |}).
Proof.
  induction schemaNames as [|s rest IH]; intros success w.
  - exists (heap_of w). cbn. rewrite andb_true_r, !app_nil_r.
    now destruct w.
  - cbn [drop_loop attempts transcript]. rewrite blank_test.
    destruct (blank s); cbv iota.
    + unfold bind at 1. cbn [console_warn console_write].
      edestruct IH as [h' ->]. exists h'. cbn [heap_of console executed].
      now rewrite <- app_assoc.
    + unfold bind, db_execute.
      destruct (db (DropSchemaIfExistsCascade s) (executed w) (heap_of w))
        as [p h1].
      destruct p as [rows|e]; cbn -[drop_loop].
      * edestruct IH as [h' ->]. exists h'.
        cbn [heap_of console executed]. now rewrite <- !app_assoc.
      * destruct (truthy e) eqn:He; cbn -[drop_loop];
          edestruct IH as [h' ->]; exists h';
          cbn [heap_of console executed]; rewrite <- !app_assoc;
          [now rewrite andb_false_r|reflexivity].
Qed.

(** The whole script on a list that is not empty. *)
Lemma dropSchemas_run (db : driver) (schemaNames : list jsstring) (w : world) :
  schemaNames <> [] ->
  let tried := attempts db schemaNames (executed w) (heap_of w) in
  let ok := forallb (fun a => negb (reported_failure (snd a))) tried in
  exists h',
    dropSchemas db schemaNames w
    = (Exits (if ok then 0%Z else 1%Z),
       {| heap_of := h';
          console :=
            console w ++
            transcript db schemaNames (executed w) (heap_of w) ++
            [if ok then all_success_message else some_failed_message];
          executed :=
            executed w ++
            map (fun a => DropSchemaIfExistsCascade (fst a)) tried |}).
Proof.
  intros Hne tried ok. unfold dropSchemas, async, bind.
  destruct schemaNames as [|s rest]; [congruence|].
  cbn [length Nat.eqb ret].
  destruct (drop_loop_run db (s :: rest) true w) as [h' ->].
  exists h'. cbn [andb]. fold tried. fold ok.
  destruct ok; cbn; now rewrite <- app_assoc.
Qed.

Lemma attempts_names (db : driver) (schemaNames : list jsstring) :
  forall hist h,
    map fst (attempts db schemaNames hist h)
    = List.filter (fun s => negb (blank s)) schemaNames.
Proof.
  induction schemaNames as [|s rest IH]; intros hist h; [reflexivity|].
  cbn [attempts List.filter]. destruct (blank s); cbn [negb]; [apply IH|].
  destruct (db _ hist h) as [p h']. cbn [map fst]. now rewrite IH.
Qed.

Lemma transcript_success (db : driver) (schemaNames : list jsstring)
    (s : jsstring) (p : promise value) :
  forall hist h,
    In (s, p) (attempts db schemaNames hist h) ->
    reported_failure p = false ->
    In (success_message s) (transcript db schemaNames hist h).
Proof.
  induction schemaNames as [|s0 rest IH]; intros hist h; [intros []|].
  cbn [attempts transcript]. destruct (blank s0).
  - intros Hin Hp. right. now apply IH.
  - destruct (db _ hist h) as [p0 h'].
    intros [[= <- <-]|Hin] Hp; [left|right; now apply IH].
    destruct p0 as [rows|e]; [reflexivity|]. cbn in Hp. now rewrite Hp.
Qed.

Lemma transcript_failure (db : driver) (schemaNames : list jsstring)
    (s : jsstring) (e : value) :
  forall hist h,
    In (s, Rejected e) (attempts db schemaNames hist h) ->
    truthy e = true ->
    In (failure_message s e) (transcript db schemaNames hist h).
Proof.
  induction schemaNames as [|s0 rest IH]; intros hist h; [intros []|].
  cbn [attempts transcript]. destruct (blank s0).
  - intros Hin He. right. now apply IH.
  - destruct (db _ hist h) as [p0 h'].
    intros [[= <- ->]|Hin] He; [left|right; now apply IH].
    now rewrite He.
Qed.

Lemma transcript_warnings (db : driver) (schemaNames : list jsstring) :
  forall hist h,
    List.filter is_skip_warning (transcript db schemaNames hist h)
    = map (fun _ => skip_warning) (List.filter blank schemaNames).
Proof.
  induction schemaNames as [|s rest IH]; intros hist h; [reflexivity|].
  cbn [transcript List.filter]. destruct (blank s).
  - cbn [List.filter map]. unfold is_skip_warning at 1.
    rewrite bool_decide_eq_true_2 by reflexivity. now rewrite IH.
  - destruct (db _ hist h) as [p h']. cbn [List.filter].
    replace (is_skip_warning _) with false; [apply IH|].
    symmetry. apply bool_decide_eq_false.
    destruct p as [rows|e]; [|destruct (truthy e)]; discriminate.
Qed.

Lemma transcript_all_blank (db : driver) (schemaNames : list jsstring) :
  forallb blank schemaNames = true ->
  forall hist h,
    attempts db schemaNames hist h = [] /\
    transcript db schemaNames hist h = map (fun _ => skip_warning) schemaNames.
Proof.
  induction schemaNames as [|s rest IH]; intros Hb hist h; [now split|].
  cbn [forallb] in Hb. apply andb_true_iff in Hb as [Hs Hrest].
  cbn [attempts transcript map]. rewrite Hs.
  destruct (IH Hrest hist h) as [-> ->]. now split.
Qed.

(** On blank names the loop only warns. *)
Lemma drop_loop_all_blank (db : driver) (schemaNames : list jsstring) :
  forallb blank schemaNames = true ->
  forall (success : bool) (w : world),
    drop_loop db schemaNames success w
    = (Returns success,
       {| heap_of := heap_of w;
          console := console w ++ map (fun _ => skip_warning) schemaNames;
          executed := executed w |}).
Proof.
  induction schemaNames as [|s rest IH]; intros Hb success w.
  - cbn. rewrite app_nil_r. now destruct w.
  - cbn [forallb] in Hb. apply andb_true_iff in Hb as [Hs Hrest].
    cbn [drop_loop]. rewrite blank_test, Hs. unfold bind at 1.
    cbn [console_warn console_write]. rewrite (IH Hrest).
    cbn [heap_of console executed map]. now rewrite <- app_assoc.
Qed.

(** A string trims to nothing exactly when it is made of white space. *)
Lemma trimStart_empty (s : jsstring) :
  JSString.is_empty (JSString.trimStart s)
  = forallb JSString.is_white_space s.
Proof.
  induction s as [|c s IH]; [reflexivity|].
  cbn [JSString.trimStart forallb].
  destruct (JSString.is_white_space c) eqn:Hc; [exact IH|reflexivity].
Qed.

Lemma trimStart_suffix (s : jsstring) :
  JSString.trimStart s = [] \/
  exists c s', JSString.trimStart s = c :: s' /\
               JSString.is_white_space c = false.
Proof.
  induction s as [|c s IH]; [now left|].
  cbn [JSString.trimStart].
  destruct (JSString.is_white_space c) eqn:Hc; [exact IH|].
  right. eauto.
Qed.

Lemma blank_white_space (s : jsstring) :
  blank s = forallb JSString.is_white_space s.
Proof.
  unfold blank, JSString.trim, JSString.trimEnd.
  rewrite <- trimStart_empty.
  destruct (trimStart_suffix s) as [->|(c & s' & -> & Hc)]; [reflexivity|].
  cbn [JSString.is_empty rev].
  destruct (rev (JSString.trimStart (rev s' ++ [c]))) as [|x xs] eqn:Hrev;
    [|reflexivity].
  exfalso.
  apply (f_equal (@rev _)) in Hrev. rewrite rev_involutive in Hrev.
  cbn in Hrev.
  assert (Hall : forallb JSString.is_white_space (rev s' ++ [c]) = true).
  { rewrite <- trimStart_empty. now rewrite Hrev. }
  rewrite forallb_app in Hall. cbn in Hall. rewrite Hc in Hall.
  now rewrite andb_false_r in Hall.
Qed.

Lemma blank_analytics : blank (js "analytics") = false.
Proof. reflexivity. Qed.

Lemma blank_empty : blank [] = true.
Proof. reflexivity. Qed.

(** C8. On an empty list the script prints the no-op message and exits
    with status 0, executing nothing.  On [["analytics"; ""]] only the drop
    of ["analytics"] is executed and the skip warning is printed.  On any
    list that is not empty the script executes the attempted drops and
    exits; if every attempted drop is fulfilled, each gets its success
    message, the closing success message is printed and the status is 0; if
    an attempted drop fails, its promise rejected with an error (a truthy
    value, as every error object is and as [E extends Error] has it), that
    failure is printed with its error, then the closing failure message,
    and the status is 1. *)
Theorem dropSchemas_scenarios (db : driver) (w : world) :
  dropSchemas db [] w
    = (Exits 0,
       {| heap_of := heap_of w;
          console := console w ++ [no_op_message];
          executed := executed w |}) /\
  (exists code w',
     dropSchemas db [js "analytics"; js ""] w = (Exits code, w') /\
     executed w'
       = executed w ++ [DropSchemaIfExistsCascade (js "analytics")] /\
     In skip_warning (console w')) /\
  (forall schemaNames,
     schemaNames <> [] ->
     let tried := attempts db schemaNames (executed w) (heap_of w) in
     exists code w',
       dropSchemas db schemaNames w = (Exits code, w') /\
       executed w'
         = executed w ++
           map (fun a => DropSchemaIfExistsCascade (fst a)) tried /\
       (Forall (fun a => fulfilled (snd a)) tried ->
          code = 0%Z /\
          (forall s p, In (s, p) tried ->
             In (success_message s) (console w')) /\
          In all_success_message (console w')) /\
       (forall s e,
          In (s, Rejected e) tried ->
          truthy e = true ->
          code = 1%Z /\
          In (failure_message s e) (console w') /\
          In some_failed_message (console w'))).
Proof.
  split; [reflexivity|]. split.
  - destruct (dropSchemas_run db [js "analytics"; js ""] w)
      as [h' Hrun]; [discriminate|].
    eexists _, _. split; [exact Hrun|]. cbn [executed console].
    cbn [attempts transcript]. rewrite blank_analytics.
    destruct (db _ (executed w) (heap_of w)) as [p h1].
    change (blank (js "")) with true. cbv iota.
    split; [reflexivity|].
    apply in_or_app. right. right. left. reflexivity.
  - intros schemaNames Hne tried.
    destruct (dropSchemas_run db schemaNames w Hne) as [h' Hrun].
    fold tried in Hrun.
    set (ok := forallb (fun a => negb (reported_failure (snd a))) tried)
      in Hrun.
    eexists _, _. split; [exact Hrun|]. cbn [executed console].
    split; [reflexivity|]. split.
    + intros Hall.
      assert (Hok : ok = true).
      { apply forallb_forall. intros [s p] Hin.
        apply (proj1 (List.Forall_forall _ _) Hall) in Hin.
        destruct p; [reflexivity|contradiction]. }
      rewrite Hok. split; [reflexivity|]. split.
      * intros s p Hin. apply in_or_app. right. apply in_or_app. left.
        apply (transcript_success _ _ _ p); [exact Hin|].
        apply (proj1 (List.Forall_forall _ _) Hall) in Hin.
        destruct p; [reflexivity|contradiction].
      * apply in_or_app. right. apply in_or_app. right. now left.
    + intros s e Hin He.
      assert (Hok : ok = false).
      { destruct ok eqn:Hok; [|reflexivity].
        apply (proj1 (forallb_forall _ _) Hok) in Hin.
        cbn in Hin. now rewrite He in Hin. }
      rewrite Hok. split; [reflexivity|]. split.
      * apply in_or_app. right. apply in_or_app. left.
        now apply transcript_failure.
      * apply in_or_app. right. apply in_or_app. right. now left.
Qed.

Lemma dropSchemas_scenarios_witness :
  let w := World [] [] [] in
  let names := [js "analytics"; js ""] in
  (exists code w',
     dropSchemas accepting names w = (Exits code, w') /\
     code = 0%Z /\
     In (success_message (js "analytics")) (console w') /\
     In all_success_message (console w')) /\
  (exists code w',
     dropSchemas denying names w = (Exits code, w') /\
     code = 1%Z /\
     In (failure_message (js "analytics") (VRef 0)) (console w') /\
     In some_failed_message (console w')).
Proof.
  intros w names. split.
  - destruct (proj2 (proj2 (dropSchemas_scenarios accepting w)) names)
      as (code & w' & Hrun & _ & Hok & _); [discriminate|].
    destruct Hok as (Hcode & Hmsg & Hall).
    { repeat constructor. }
    exists code, w'. split; [exact Hrun|]. split; [exact Hcode|].
    split; [|exact Hall].
    apply (Hmsg _ (Fulfilled VUndefined)). left. reflexivity.
  - destruct (proj2 (proj2 (dropSchemas_scenarios denying w)) names)
      as (code & w' & Hrun & _ & _ & Hfail); [discriminate|].
    destruct (Hfail (js "analytics") (VRef 0)) as (Hcode & Hmsg & Hsome).
    { left. reflexivity. }
    { reflexivity. }
    exists code, w'. auto.
Defined.

(** C10. The script executes the drops of exactly the entries that are not
    blank, in order, and prints one skip warning for each blank entry; an
    entry is blank when its trimmed form is empty, that is when it consists
    of white space only, as ["  "] does.  On a list that is not empty and
    whose entries are all blank it therefore executes nothing, prints the
    warnings and then the closing success message, and exits with
    status 0. *)
Theorem dropSchemas_skips_blank (db : driver) (w : world)
    (schemaNames : list jsstring) :
  (exists code w',
     dropSchemas db schemaNames w = (Exits code, w') /\
     executed w'
       = executed w ++
         map DropSchemaIfExistsCascade
           (List.filter (fun s => negb (blank s)) schemaNames) /\
     List.filter is_skip_warning (console w')
       = List.filter is_skip_warning (console w) ++
         map (fun _ => skip_warning) (List.filter blank schemaNames)) /\
  (forall s,
     blank s = JSString.is_empty (JSString.trim s) /\
     blank s = forallb JSString.is_white_space s) /\
  blank (js "  ") = true /\
  (schemaNames <> [] ->
   forallb blank schemaNames = true ->
   dropSchemas db schemaNames w
   = (Exits 0,
      {| heap_of := heap_of w;
         console :=
           console w ++ map (fun _ => skip_warning) schemaNames ++
           [all_success_message];
         executed := executed w |})).
Proof.
  split; [|split; [|split]].
  - destruct schemaNames as [|s rest].
    + eexists _, _. split; [reflexivity|]. cbn [executed console].
      cbn [List.filter map]. rewrite !app_nil_r. split; [reflexivity|].
      rewrite List.filter_app. cbn. now rewrite app_nil_r.
    + destruct (dropSchemas_run db (s :: rest) w) as [h' Hrun];
        [discriminate|].
      eexists _, _. split; [exact Hrun|]. cbn [executed console]. split.
      * rewrite <- attempts_names with (db := db) (hist := executed w)
                                      (h := heap_of w).
        now rewrite map_map.
      * rewrite !List.filter_app, transcript_warnings.
        replace (List.filter is_skip_warning [_]) with
          (@nil (level * list value)); [now rewrite app_nil_r|].
        now destruct (forallb _ _).
  - intros s. split; [reflexivity|apply blank_white_space].
  - reflexivity.
  - intros Hne Hall. unfold dropSchemas, async, bind.
    destruct schemaNames as [|s rest]; [congruence|].
    cbn [length Nat.eqb ret].
    rewrite (drop_loop_all_blank db (s :: rest) Hall). cbn.
    now rewrite <- app_assoc.
Qed.

Lemma dropSchemas_skips_blank_witness :
  let w := World [] [] [] in
  dropSchemas denying [js "  "; js ""] w
  = (Exits 0,
     {| heap_of := [];
        console := [skip_warning; skip_warning; all_success_message];
        executed := [] |}).
Proof.
  intros w.
  apply (proj2 (proj2 (proj2
           (dropSchemas_skips_blank denying w [js "  "; js ""]))));
    [discriminate|reflexivity].
Defined.

(** * Further properties of the errors module *)

(** X1. [trySync] never throws, whatever the callable does: it ends the way
    the callable ends, with the callable's effects and no other; the end of
    the process inside the callable is not caught; and a result it returns
    has at least one of its two fields undefined. *)
Theorem trySync_outcome (fn : M value) (w : world) :
  (forall e w', trySync fn w <> (Throws e, w')) /\
  snd (trySync fn w) = snd (fn w) /\
  (forall code w', fn w = (Exits code, w') ->
     trySync fn w = (Exits code, w')) /\
  (forall r w', trySync fn w = (Returns r, w') ->
     data r = VUndefined \/ error r = VUndefined).
Proof.
  unfold trySync, try_catch, bind, ret.
  destruct (fn w) as [[v|e|code] w1]; repeat split; try congruence.
  - intros r w' [= <- _]. now right.
  - intros r w' [= <- _]. now left.
Qed.

Lemma trySync_outcome_witness :
  let w := World [] [] [] in
  trySync (process_exit 3) w = (Exits 3, w) /\
  (data {| data := VUndefined; error := VNull |} = VUndefined \/
   error {| data := VUndefined; error := VNull |} = VUndefined).
Proof.
  intros w.
  pose proof (trySync_outcome (process_exit 3) w) as (_ & _ & Hexit & _).
  pose proof (trySync_outcome (throw VNull) w) as (_ & _ & _ & Hres).
  split; [apply Hexit|apply (Hres _ w)]; reflexivity.
Defined.

(** X2. A caller that tests [result.error] for truthiness sees a failure
    exactly when the callable threw, or the promise was rejected with, a
    truthy value. *)
Theorem error_slot_truthy :
  (forall (fn : M value) (w w' : world) (r : Result),
     trySync fn w = (Returns r, w') ->
     (truthy (error r) = true <->
      exists e, fn w = (Throws e, w') /\ truthy e = true)) /\
  (forall (p : promise value) (w w' : world) (r : Result),
     tryCatch p w = (Returns (Fulfilled r), w') ->
     (truthy (error r) = true <->
      exists e, p = Rejected e /\ truthy e = true)).
Proof.
  split.
  - intros fn w w' r. unfold trySync, try_catch, bind, ret.
    destruct (fn w) as [[v|e|code] w1]; intros [= <- <-]; cbn [error].
    + split; [discriminate|]. intros (e & [=] & _).
    + split; [eauto|]. now intros (e' & [= <-] & He).
  - intros [v|e] w w' r [= <- <-]; cbn [error].
    + split; [discriminate|]. intros (e & [=] & _).
    + split; [eauto|]. now intros (e' & [= <-] & He).
Qed.

Lemma error_slot_truthy_witness :
  let w := World [] [] [] in
  truthy (error {| data := VUndefined; error := VRef 0 |}) = true <->
  exists e, throw (A := value) (VRef 0) w = (Throws e, w) /\ truthy e = true.
Proof.
  intros w.
  apply (proj1 error_slot_truthy (throw (VRef 0)) w w). reflexivity.
Defined.

(** X3. For an async body that returns a plain value (the values here are
    never promises or thenables, which an async function would adopt), throws
    or ends the process, awaiting [tryCatch] on its promise gives the result
    [trySync] gives on the body itself. *)
Theorem tryCatch_async (body : M value) (w : world) :
  (let* p := async body in
   let* settled := tryCatch p in
   await settled)%prog w
  = trySync body w.
Proof.
  unfold tryCatch, trySync, async, try_catch, await, bind, ret, throw.
  destruct (body w) as [[v|e|code] w1]; reflexivity.
Qed.

(** X4. Rendering a wrapped error throws when rendering its cause throws;
    so it does for a cause that is [undefined] or [null], which
    [tryCatch] can hand over. *)
Theorem toString_wrap_throws (cause : value) (message : jsstring)
    (w w' : world) (e : value) :
  wrap cause message w = (Returns e, w') ->
  (forall fuel,
     WrappedError.toString fuel (heap_of w) cause = Some TypeError ->
     WrappedError.toString (S fuel) (heap_of w') e = Some TypeError) /\
  (cause = VUndefined \/ cause = VNull ->
   forall fuel,
     WrappedError.toString (S fuel) (heap_of w') e = Some TypeError).
Proof.
  intros Hw. apply wrap_inv in Hw as [-> ->].
  assert (Hgen : forall fuel,
    WrappedError.toString fuel (heap_of w) cause = Some TypeError ->
    WrappedError.toString (S fuel)
      (heap_of w ++
       [{| proto := WrappedErrorPrototype;
           props := <["cause" := cause]>
                      (<["name" := VString (js "WrappedError")]>
                         (<["message" := VString message]> ∅)) |}])
      (VRef (length (heap_of w))) = Some TypeError).
  { intros fuel Hr.
    erewrite toString_wrapped; [|apply lookup_fresh|reflexivity|].
    - unfold get. cbn [props]. rewrite wrapped_cause.
      now rewrite (toString_extend _ _ _ _ _ Hr).
    - unfold get. cbn [props]. now rewrite wrapped_message. }
  split; [exact Hgen|].
  intros [-> | ->] fuel; apply Hgen; now destruct fuel.
Qed.

Lemma toString_wrap_throws_witness :
  let w := World [] [] [] in
  let w' := snd (wrap VUndefined (js "ctx") w) in
  WrappedError.toString 1 (heap_of w') (VRef 0) = Some TypeError /\
  WrappedError.toString 4 (heap_of w') (VRef 0) = Some TypeError.
Proof.
  intros w w'.
  pose proof (toString_wrap_throws VUndefined (js "ctx") w w' (VRef 0)
                eq_refl) as [Hgen Hnull].
  split; [apply (Hgen 0); reflexivity|apply Hnull; now left].
Defined.

(** X5. Wrapping [rootCause] with the messages [m1; ...; mk] in turn and
    rendering the outermost wrapper gives [mk: ...: m1: rendered], with
    [k] more nested calls than rendering [rootCause] takes. *)
Theorem toString_wrap_all (messages : list jsstring) :
  forall (rootCause : value) (w : world) (fuel : nat) (rendered : jsstring),
    WrappedError.toString fuel (heap_of w) rootCause
      = Some (Normal rendered) ->
    exists outer w',
      wrap_all rootCause messages w = (Returns outer, w') /\
      WrappedError.toString (length messages + fuel) (heap_of w') outer
      = Some (Normal (render_chain messages rendered)).
Proof.
  induction messages as [|m ms IH]; intros rootCause w fuel rendered Hr.
  - exists rootCause, w. split; [reflexivity|exact Hr].
  - cbn [wrap_all]. unfold bind.
    destruct (wrap rootCause m w) as [r w1] eqn:Hw.
    pose proof Hw as Hw'. rewrite wrap_run in Hw'. injection Hw' as <- <-.
    pose proof (toString_wrap _ _ _ _ _ _ _ Hw Hr) as Hr1.
    destruct (IH _ _ _ _ Hr1) as (outer & w' & -> & Hout).
    exists outer, w'. split; [reflexivity|].
    replace (length (m :: ms) + fuel) with (length ms + S fuel)
      by (cbn; lia).
    exact Hout.
Qed.

Lemma toString_wrap_all_witness :
  let root :=
    {| proto := ErrorPrototype;
       props := <["message" := VString (js "boom")]> ∅ |} in
  exists outer w',
    wrap_all (VRef 0) [js "C"; js "B"; js "A"] (World [root] [] [])
      = (Returns outer, w') /\
    WrappedError.toString 4 (heap_of w') outer
    = Some (Normal (js "A: B: C: Error: boom")).
Proof.
  intros root.
  exact (toString_wrap_all [js "C"; js "B"; js "A"] (VRef 0)
           (World [root] [] []) 1 (js "Error: boom") eq_refl).
Defined.

Lemma chain_end_terminal (h : heap) (n : nat) (v t : value) :
  chain h n v t -> terminal h t /\ (t = v \/ error_like h t).
Proof.
  induction 1 as [v Ht|n v c t Hl Hch [IHt IHe]].
  - auto.
  - split; [exact IHt|]. right.
    destruct IHe as [->|He]; [|exact He].
    now destruct Hl as (l & o & _ & _ & _ & He).
Qed.

(** X6. What [WrappedError.cause] returns is an object at which the walk
    stops, and is either the argument itself or an instance of [Error];
    walking from it again returns it. *)
Theorem cause_result_terminal (fuel : nat) (h : heap) (error t : value) :
  WrappedError.cause fuel h error = Some (Normal t) ->
  terminal h t /\
  (t = error \/ error_like h t) /\
  (forall fuel', WrappedError.cause (S fuel') h t = Some (Normal t)).
Proof.
  intros H. apply cause_loop_sound in H as (n & _ & Hch).
  destruct (chain_end_terminal _ _ _ _ Hch) as [Ht He].
  split; [exact Ht|]. split; [exact He|].
  intros fuel'. unfold WrappedError.cause.
  now rewrite (cause_loop_chain h 0 t t) by now constructor.
Qed.

Lemma cause_result_terminal_witness :
  let root :=
    {| proto := ErrorPrototype;
       props := <["message" := VString (js "boom")]> ∅ |} in
  let wrapper :=
    {| proto := WrappedErrorPrototype;
       props := <["cause" := VRef 0]>
                  (<["name" := VString (js "WrappedError")]>
                     (<["message" := VString (js "ctx")]> ∅)) |} in
  terminal [root; wrapper] (VRef 0) /\
  WrappedError.cause 1 [root; wrapper] (VRef 0) = Some (Normal (VRef 0)).
Proof.
  intros root wrapper.
  pose proof (cause_result_terminal 2 [root; wrapper] (VRef 1) (VRef 0)
                eq_refl) as (Ht & _ & Hfix).
  split; [exact Ht|exact (Hfix 0)].
Defined.

(** X7. [WrappedError.cause] throws exactly when its argument is a
    primitive, on which the [in] operator fails; from an object the walk
    only ever moves on to objects. *)
Theorem cause_throws_on_primitive (fuel : nat) (h : heap) (error : value) :
  WrappedError.cause (S fuel) h error = Some TypeError <->
  (forall l, error <> VRef l).
Proof.
  unfold WrappedError.cause. split.
  - intros H l ->. revert l H.
    induction (S fuel) as [|k IH]; intros l; [discriminate|].
    cbn [WrappedError.cause_loop WrappedError.has_error_cause
         WrappedError.get_cause].
    destruct (h !! l) as [o|]; [|discriminate].
    destruct (has_property o "cause" && not_nullish (get o "cause")).
    + destruct (get o "cause") as [| | | |lc]; try discriminate.
      unfold instanceof_Error. destruct (h !! lc) as [oc|]; [|discriminate].
      cbn [eval_ret eval_bind]. destruct (is_error_object oc).
      * apply IH.
      * discriminate.
    + discriminate.
  - intros Hprim. destruct error as [| | | |l]; try reflexivity.
    now destruct (Hprim l).
Qed.

Lemma cause_throws_on_primitive_witness :
  WrappedError.cause 1 [] (VString (js "boom")) = Some TypeError.
Proof.
  apply (proj2 (cause_throws_on_primitive 0 [] (VString (js "boom")))).
  discriminate.
Defined.

(** X8. The root cause of a wrapped error: if the cause is an instance of
    [Error], it is the root cause of that cause; if the cause is anything
    else (a thrown string, a plain object, [undefined]), the walk stops at
    the wrapper and returns the wrapper. *)
Theorem cause_of_wrap (cause : value) (message : jsstring) (w w' : world)
    (e : value) :
  wrap cause message w = (Returns e, w') ->
  (forall fuel t,
     error_like (heap_of w) cause ->
     WrappedError.cause fuel (heap_of w) cause = Some (Normal t) ->
     WrappedError.cause (S fuel) (heap_of w') e = Some (Normal t)) /\
  (not_error_like (heap_of w) cause ->
   forall fuel,
     WrappedError.cause (S fuel) (heap_of w') e = Some (Normal e)).
Proof.
  intros Hw. split.
  - intros fuel t He Hc. unfold WrappedError.cause in *.
    apply cause_loop_sound in Hc as (n & Hn & Hch).
    destruct (wrap_chain _ _ _ _ _ _ _ Hw He Hch) as [_ Hch'].
    rewrite (cause_loop_chain _ _ _ _ Hch').
    now rewrite (proj2 (Nat.ltb_lt (S n) (S fuel))) by lia.
  - intros Hn fuel. apply wrap_inv in Hw as [-> ->].
    unfold WrappedError.cause.
    rewrite (cause_loop_chain _ 0 _ (VRef (length (heap_of w)))).
    + reflexivity.
    + constructor. eexists _, _. split; [reflexivity|].
      split; [apply lookup_fresh|]. right; right; right.
      exists cause. cbn [props]. split; [apply wrapped_cause|].
      now apply not_error_like_extend.
Qed.

Lemma cause_of_wrap_witness :
  let root :=
    {| proto := ErrorPrototype;
       props := <["message" := VString (js "boom")]> ∅ |} in
  let w := World [root] [] [] in
  WrappedError.cause 2 (heap_of (snd (wrap (VRef 0) (js "ctx") w))) (VRef 1)
    = Some (Normal (VRef 0)) /\
  WrappedError.cause 1
    (heap_of (snd (wrap (VString (js "boom")) (js "ctx") w))) (VRef 1)
    = Some (Normal (VRef 1)).
Proof.
  intros root w. split.
  - apply (proj1 (cause_of_wrap (VRef 0) (js "ctx") w
                    (snd (wrap (VRef 0) (js "ctx") w)) (VRef 1) eq_refl)
             1 (VRef 0)); [|reflexivity].
    exists 0, root. repeat split.
  - apply (proj2 (cause_of_wrap (VString (js "boom")) (js "ctx") w
                    (snd (wrap (VString (js "boom")) (js "ctx") w))
                    (VRef 1) eq_refl)).
    exact I.
Defined.

Lemma wrap_string_fields (cause : value) (message : jsstring) (w w' : world)
    (e : value) :
  wrap cause message w = (Returns e, w') ->
  string_fields (heap_of w) ->
  string_fields (heap_of w').
Proof.
  intros Hw Hs. apply wrap_inv in Hw as [-> ->].
  intros l o key v Hl Hkey Hp.
  destruct (decide (l < length (heap_of w))) as [Hlt|Hge].
  - rewrite lookup_app_l in Hl by exact Hlt. eauto.
  - apply lookup_lt_Some in Hl as Hlen. rewrite length_app in Hlen.
    cbn in Hlen. assert (l = length (heap_of w)) as -> by lia.
    rewrite lookup_fresh in Hl. injection Hl as <-. cbn [props] in Hp.
    destruct Hkey as [-> | ->].
    + rewrite wrapped_name in Hp. injection Hp as <-. eauto.
    + rewrite wrapped_message in Hp. injection Hp as <-. eauto.
Qed.

(** X9. Any number of calls of [wrap] keeps the heap one in which every
    cause is older than the object that names it and in which names and
    messages are strings; each call adds one object, and what is returned
    is an object of the heap. *)
Theorem wrap_all_invariants (messages : list jsstring) :
  forall (cause : value) (w w' : world) (outer : value),
    causes_older (heap_of w) ->
    string_fields (heap_of w) ->
    (forall c, cause = VRef c -> c < length (heap_of w)) ->
    wrap_all cause messages w = (Returns outer, w') ->
    causes_older (heap_of w') /\
    string_fields (heap_of w') /\
    (forall c, outer = VRef c -> c < length (heap_of w')) /\
    length (heap_of w') = length (heap_of w) + length messages.
Proof.
  induction messages as [|m ms IH]; intros cause w w' outer Hold Hs Hc.
  - intros [= <- <-]. cbn. rewrite Nat.add_0_r. auto.
  - cbn [wrap_all]. unfold bind.
    destruct (wrap cause m w) as [r w1] eqn:Hw.
    pose proof Hw as Hw'. rewrite wrap_run in Hw'. injection Hw' as <- Hw1.
    intros Hall.
    pose proof (wrap_causes_older _ _ _ _ _ Hw Hc Hold) as Hold1.
    pose proof (wrap_string_fields _ _ _ _ _ Hw Hs) as Hs1.
    assert (Hlen : length (heap_of w1) = S (length (heap_of w))).
    { rewrite <- Hw1. cbn [heap_of]. rewrite length_app. cbn. lia. }
    assert (Hc1 : forall c, VRef (length (heap_of w)) = VRef c ->
                        c < length (heap_of w1))
      by (intros c [= <-]; lia).
    destruct (IH _ _ _ _ Hold1 Hs1 Hc1 Hall) as (H1 & H2 & H3 & H4).
    repeat split; auto. rewrite H4, Hlen. cbn. lia.
Qed.

Lemma wrap_all_invariants_witness :
  let root :=
    {| proto := ErrorPrototype;
       props := <["message" := VString (js "boom")]> ∅ |} in
  let w := World [root] [] [] in
  let w' := snd (wrap_all (VRef 0) [js "B"; js "A"] w) in
  causes_older (heap_of w') /\
  string_fields (heap_of w') /\
  2 < length (heap_of w') /\
  length (heap_of w') = 1 + 2.
Proof.
  intros root w w'.
  destruct (wrap_all_invariants [js "B"; js "A"] (VRef 0) w w' (VRef 2))
    as (H1 & H2 & H3 & H4).
  - intros [|l] o c Hl Hc; cbn in Hl; [|discriminate].
    injection Hl as <-. vm_compute in Hc. discriminate Hc.
  - intros [|l] o key v Hl Hkey Hp; cbn in Hl; [|discriminate].
    injection Hl as <-.
    destruct Hkey as [-> | ->]; vm_compute in Hp; [discriminate Hp|].
    injection Hp as <-. eauto.
  - intros c [= <-]. cbn. lia.
  - reflexivity.
  - repeat split; auto.
Defined.

Lemma toString_fuel_mono (fuel : nat) :
  forall (fuel' : nat) (h : heap) (v : value) (r : completion jsstring),
    fuel <= fuel' ->
    WrappedError.toString fuel h v = Some r ->
    WrappedError.toString fuel' h v = Some r.
Proof.
  induction fuel as [|fuel IH]; intros fuel' h v r Hle.
  - destruct v; cbn; try congruence; destruct fuel'; cbn; congruence.
  - destruct fuel' as [|fuel']; [lia|].
    assert (Hrec : forall v' r',
              WrappedError.toString fuel h v' = Some r' ->
              WrappedError.toString fuel' h v' = Some r')
      by (intros v' r'; apply IH; lia).
    destruct v as [| | | |l]; cbn; try congruence.
    destruct (h !! l) as [o|]; [|discriminate].
    destruct (proto o).
    + auto.
    + now apply Error_toString_extend.
    + apply eval_bind_mono.
      * intros x. now apply ToString_extend.
      * intros m x. apply eval_bind_mono; [|auto]. intros y. apply Hrec.
Qed.

Lemma get_string_field (h : heap) (l : loc) (o : object) (key : string) :
  string_fields h ->
  h !! l = Some o ->
  is_error_object o = true ->
  key = "name"%string \/ key = "message"%string ->
  exists s, get o key = VString s.
Proof.
  intros Hs Hl He Hkey. unfold get.
  destruct (props o !! key) as [v|] eqn:Hp; [eauto|].
  unfold is_error_object in He.
  destruct (proto o); [discriminate| |];
    destruct Hkey as [-> | ->]; cbn; eauto.
Qed.

(** X10. In a heap where every cause is older than the object that names
    it and names and messages are strings (what [wrap] builds from typed
    errors), rendering any object takes no more nested calls than its
    location, plus one: [toString] returns a string or throws a
    [TypeError], and never recurses for ever. *)
Theorem toString_terminates (h : heap) :
  causes_older h ->
  string_fields h ->
  forall l, l < length h ->
    exists r, WrappedError.toString (S l) h (VRef l) = Some r.
Proof.
  intros Hold Hs l. induction l as [l IH] using lt_wf_ind. intros Hl.
  destruct (lookup_lt_is_Some_2 h l Hl) as [o Ho].
  cbn [WrappedError.toString]. rewrite Ho.
  destruct (proto o) eqn:Hproto.
  - eauto.
  - assert (He : is_error_object o = true)
      by (unfold is_error_object; now rewrite Hproto).
    destruct (get_string_field h l o "name" Hs Ho He) as [n Hn]; [auto|].
    destruct (get_string_field h l o "message" Hs Ho He) as [m Hm]; [auto|].
    unfold WrappedError.Error_toString. rewrite Hn, Hm.
    cbn [WrappedError.ToString]. rewrite !toString_string.
    cbn [eval_bind].
    destruct (JSString.is_empty n), (JSString.is_empty m); eauto.
  - assert (He : is_error_object o = true)
      by (unfold is_error_object; now rewrite Hproto).
    destruct (get_string_field h l o "message" Hs Ho He) as [m Hm]; [auto|].
    rewrite Hm. cbn [WrappedError.ToString]. rewrite toString_string.
    cbn [eval_bind].
    assert (Hc : exists r,
              WrappedError.toString l h (get o "cause") = Some r).
    { unfold get. destruct (props o !! "cause") as [c|] eqn:Hc.
      - destruct c as [| |b|s|lc];
          try (destruct l; cbn; eauto; fail).
        pose proof (Hold _ _ _ Ho Hc) as Hlt.
        destruct (IH lc Hlt ltac:(lia)) as [r Hr].
        exists r. apply (toString_fuel_mono (S lc)); [lia|exact Hr].
      - rewrite Hproto. cbn. destruct l; cbn; eauto. }
    destruct Hc as [[c|] ->]; cbn [eval_bind]; eauto.
Qed.

Lemma toString_terminates_witness :
  let root :=
    {| proto := ErrorPrototype;
       props := <["message" := VString (js "boom")]> ∅ |} in
  let inner :=
    {| proto := WrappedErrorPrototype;
       props := <["cause" := VRef 0]>
                  (<["name" := VString (js "WrappedError")]>
                     (<["message" := VString (js "B")]> ∅)) |} in
  let outer :=
    {| proto := WrappedErrorPrototype;
       props := <["cause" := VRef 1]>
                  (<["name" := VString (js "WrappedError")]>
                     (<["message" := VString (js "A")]> ∅)) |} in
  exists r, WrappedError.toString 3 [root; inner; outer] (VRef 2) = Some r.
Proof.
  intros root inner outer.
  apply (toString_terminates [root; inner; outer]).
  - intros [|[|[|l]]] o c Hl Hc; cbn in Hl; try discriminate;
      injection Hl as <-; vm_compute in Hc;
      [discriminate Hc|injection Hc as <-; lia|injection Hc as <-; lia].
  - intros [|[|[|l]]] o key v Hl Hkey Hp; cbn in Hl; try discriminate;
      injection Hl as <-;
      destruct Hkey as [-> | ->]; vm_compute in Hp;
      try discriminate Hp; injection Hp as <-; eauto.
  - cbn. lia.
Defined.

(** * Further properties of the drop script *)

Lemma forallb_false_exists {A} (f : A -> bool) (l : list A) :
  forallb f l = false -> exists x, In x l /\ f x = false.
Proof.
  induction l as [|a l IH]; [discriminate|]. cbn.
  destruct (f a) eqn:Ha; cbn.
  - intros H. destruct (IH H) as (x & Hin & Hx). eauto.
  - eauto.
Qed.

(** X11. Whatever the names and the database, the script ends the process,
    with status 0 or 1, and the status is 1 exactly when some attempted
    drop was rejected with a truthy value; a failure is not forgotten when
    later drops succeed. *)
Theorem dropSchemas_exit_status (db : driver) (schemaNames : list jsstring)
    (w : world) :
  exists code w',
    dropSchemas db schemaNames w = (Exits code, w') /\
    (code = 0%Z \/ code = 1%Z) /\
    (code = 1%Z <->
     exists s e,
       In (s, Rejected e)
          (attempts db schemaNames (executed w) (heap_of w)) /\
       truthy e = true).
Proof.
  destruct schemaNames as [|s0 rest].
  - eexists _, _. split; [reflexivity|]. split; [now left|].
    split; [discriminate|]. intros (s & e & [] & _).
  - destruct (dropSchemas_run db (s0 :: rest) w) as [h' Hrun];
      [discriminate|].
    set (tried := attempts db (s0 :: rest) (executed w) (heap_of w)) in *.
    set (ok := forallb (fun a => negb (reported_failure (snd a))) tried)
      in *.
    eexists _, _. split; [exact Hrun|].
    destruct ok eqn:Hok.
    + split; [now left|]. split; [discriminate|].
      intros (s & e & Hin & He). exfalso.
      apply (proj1 (forallb_forall _ _) Hok) in Hin. cbn in Hin.
      now rewrite He in Hin.
    + split; [now right|]. split; [|reflexivity]. intros _.
      apply forallb_false_exists in Hok as ([s p] & Hin & Hp).
      destruct p as [rows|e]; [discriminate|]. cbn in Hp.
      exists s, e. split; [exact Hin|].
      now apply negb_false_iff in Hp.
Qed.

Lemma dropSchemas_exit_status_witness :
  let w := World [] [] [] in
  exists code w',
    dropSchemas denying [js "a"; js "b"] w = (Exits code, w') /\
    code = 1%Z.
Proof.
  intros w.
  destruct (dropSchemas_exit_status denying [js "a"; js "b"] w)
    as (code & w' & Hrun & _ & Hone).
  exists code, w'. split; [exact Hrun|].
  apply (proj2 Hone). exists (js "a"), (VRef 0).
  split; [left|]; reflexivity.
Defined.

Lemma transcript_reports (db : driver) (schemaNames : list jsstring) :
  forall hist h,
    Forall2 entry_report schemaNames (transcript db schemaNames hist h).
Proof.
  induction schemaNames as [|s rest IH]; intros hist h; [constructor|].
  cbn [transcript]. destruct (blank s) eqn:Hb.
  - constructor; [|apply IH]. unfold entry_report. now rewrite Hb.
  - destruct (db _ hist h) as [p h']. constructor; [|apply IH].
    unfold entry_report. rewrite Hb.
    destruct p as [rows|e]; [now left|].
    destruct (truthy e); [right; eauto|now left].
Qed.

(** X12. On a list that is not empty the script prints one entry for each
    name, in the order of the names (the skip warning for a blank name,
    the success or the failure message of that name otherwise), and then
    one closing entry: the success message with status 0 or the failure
    message with status 1. *)
Theorem dropSchemas_console (db : driver) (schemaNames : list jsstring)
    (w : world) :
  schemaNames <> [] ->
  exists code w' entries closing,
    dropSchemas db schemaNames w = (Exits code, w') /\
    console w' = console w ++ entries ++ [closing] /\
    Forall2 entry_report schemaNames entries /\
    (code = 0%Z /\ closing = all_success_message \/
     code = 1%Z /\ closing = some_failed_message).
Proof.
  intros Hne.
  destruct (dropSchemas_run db schemaNames w Hne) as [h' Hrun].
  eexists _, _, _, _. split; [exact Hrun|]. cbn [console].
  split; [reflexivity|]. split; [apply transcript_reports|].
  destruct (forallb _ _); auto.
Qed.

Lemma dropSchemas_console_witness :
  let w := World [] [] [] in
  exists code w' entries closing,
    dropSchemas accepting [js "a"; js " "] w = (Exits code, w') /\
    console w' = console w ++ entries ++ [closing] /\
    Forall2 entry_report [js "a"; js " "] entries /\
    (code = 0%Z /\ closing = all_success_message \/
     code = 1%Z /\ closing = some_failed_message).
Proof.
  intros w.
  apply (dropSchemas_console accepting [js "a"; js " "] w). discriminate.
Defined.

Lemma dropSchemas_executed (db : driver) (schemaNames : list jsstring)
    (w : world) :
  exists code w',
    dropSchemas db schemaNames w = (Exits code, w') /\
    executed w'
    = executed w ++
      map DropSchemaIfExistsCascade
        (List.filter (fun s => negb (blank s)) schemaNames).
Proof.
  destruct schemaNames as [|s rest].
  - eexists _, _. split; [reflexivity|]. cbn. now rewrite app_nil_r.
  - destruct (dropSchemas_run db (s :: rest) w) as [h' Hrun];
      [discriminate|].
    eexists _, _. split; [exact Hrun|]. cbn [executed].
    rewrite <- attempts_names with (db := db) (hist := executed w)
                                    (h := heap_of w).
    now rewrite map_map.
Qed.

(** X13. The first two entries of [process.argv] are never taken for
    schema names: run with no further argument the script prints the no-op
    message and exits with status 0 without executing anything; in general
    the drops it executes are those of the entries from the third on that
    are not blank. *)
Theorem main_arguments (db : driver) (w : world) :
  (forall argv,
     length argv <= 2 ->
     main db argv w
     = (Exits 0,
        {| heap_of := heap_of w;
           console := console w ++ [no_op_message];
           executed := executed w |})) /\
  (forall argv,
     exists code w',
       main db argv w = (Exits code, w') /\
       executed w'
       = executed w ++
         map DropSchemaIfExistsCascade
           (List.filter (fun s => negb (blank s)) (skipn 2 argv))).
Proof.
  split.
  - intros [|node [|script [|s rest]]] Hlen; try reflexivity.
    cbn in Hlen. lia.
  - intros argv. unfold main. apply dropSchemas_executed.
Qed.

Lemma main_arguments_witness :
  let w := World [] [] [] in
  main denying [js "node"; js "drop.ts"] w
  = (Exits 0,
     {| heap_of := []; console := [no_op_message]; executed := [] |}).
Proof.
  intros w.
  apply (proj1 (main_arguments denying w) [js "node"; js "drop.ts"]).
  cbn. lia.
Defined.
